(** * Schnorr group arithmetic of emmy ([crypto/groups/schnorr.go])

    A shallow embedding of the [groups] package and of the parts of Go's
    [math/big], [fmt], [crypto/dsa] and [crypto/rand] that it calls,
    followed by the properties the specification states about it.

    Conventions of the embedding:
    - a [*big.Int] is an [option Z]: [None] is the nil pointer, [Some v]
      points to the integer [v] (integers are unbounded, as in [math/big]);
    - a Go function that may panic returns a [result]; [Panic] carries the
      kind of run-time panic;
    - randomness is an explicit argument: the outcome of a draw, or the
      behaviour of the generator, is quantified over. *)

From Stdlib Require Import ZArith Znumtheory Zcong Lia Bool Ascii String List.
From Stdlib Require Import DecimalString.
Import ListNotations.
Local Open Scope Z_scope.

(** ** The Go run time: panics, fallible calls, the [error] interface *)

Module Go.

Inductive panic : Set :=
| nil_pointer_dereference
| division_by_zero
| argument_not_positive.

Inductive result (A : Type) : Type :=
| Ok (a : A)
| Panic (p : panic).
Arguments Ok {A} a.
Arguments Panic {A} p.

Definition ret {A : Type} (a : A) : result A := Ok a.

Definition bind {A B : Type} (c : result A) (k : A -> result B) : result B :=
  match c with
  | Ok a => k a
  | Panic p => Panic p
  end.

(** A value of the interface [error] is known by its [Error()] string. *)
Record error : Set := { Error : string }.

End Go.
Import Go.

Notation "x <- c ;; k" := (bind c (fun x => k))
  (at level 61, c at next level, right associativity).

(** ** Package [fmt]: [Errorf] with the verb [%d] *)

Module fmt.

(** Decimal rendering of an integer, as [%d] prints it. *)
Definition itoa (v : Z) : string := NilZero.string_of_int (Z.to_int v).

Fixpoint Sprintf (format : string) (args : list Z) : string :=
  match format with
  | EmptyString => EmptyString
  | String "%"%char (String "d"%char rest) =>
      match args with
      | a :: args' => (itoa a ++ Sprintf rest args')%string
      | [] => ("%!d(MISSING)" ++ Sprintf rest [])%string
      end
  | String c rest => String c (Sprintf rest args)
  end.

Definition Errorf (format : string) (args : list Z) : error :=
  {| Error := Sprintf format args |}.

End fmt.

(** ** Package [math/big]: the operations on [*big.Int] used by the group *)

Module big.

(** [*big.Int]. *)
Definition Int : Set := option Z.

Definition deref (x : Int) : result Z :=
  match x with
  | Some v => Ok v
  | None => Panic nil_pointer_dereference
  end.

Definition NewInt (v : Z) : Int := Some v.

(** [z.Add(x, y)] with a fresh receiver [z]. *)
Definition Add (x y : Int) : result Int :=
  a <- deref x ;; b <- deref y ;; ret (Some (a + b)).

Definition Mul (x y : Int) : result Int :=
  a <- deref x ;; b <- deref y ;; ret (Some (a * b)).

Definition Abs (x : Int) : result Int :=
  a <- deref x ;; ret (Some (Z.abs a)).

Definition Neg (x : Int) : result Int :=
  a <- deref x ;; ret (Some (- a)).

(** [x.Sign()]: -1, 0 or +1. *)
Definition Sign (x : Int) : result Z :=
  a <- deref x ;; ret (Z.sgn a).

(** [x.Cmp(y)]: -1, 0 or +1. *)
Definition Cmp (x y : Int) : result Z :=
  a <- deref x ;; b <- deref y ;;
  ret (match a ?= b with Lt => -1 | Eq => 0 | Gt => 1 end).

(** [z.Mod(x, y)]: Euclidean modulus, the result lies in [[0, |y|)];
    a zero [y] is a division-by-zero run-time panic. *)
Definition Mod (x y : Int) : result Int :=
  a <- deref x ;; m <- deref y ;;
  if m =? 0 then Panic division_by_zero
  else ret (Some (a mod Z.abs m)).

(** [z.ModInverse(g, n)]: the multiplicative inverse of [g] in the ring
    Z/nZ, in the range [[0, |n|)]; when [g] and [n] are not relatively
    prime there is none and the return value is nil.  The sign of [n] is
    dropped and a negative [g] is first reduced with [Mod]. *)
Definition ModInverse (g n : Int) : result Int :=
  n0 <- deref n ;; g0 <- deref g ;;
  let n2 := Z.abs n0 in
  g2 <- (if g0 <? 0 then r <- Mod (Some g0) (Some n2) ;; deref r
         else ret g0) ;;
  if Z.gcd g2 n2 =? 1 then ret (Some (Z.invmod g2 n2)) else ret None.

(** [z.Exp(x, y, m)]: [x**y mod |m|]; for [m] nil or zero, [x**y], unless
    [y <= 0], then 1; for [m <> 0] and [y < 0] the power of the inverse of
    [x], and nil when [x] has no inverse modulo [m]. *)
Definition Exp (x y m : Int) : result Int :=
  a <- deref x ;; e <- deref y ;;
  let m0 := match m with Some v => v | None => 0 end in
  if e <? 0 then
    if m0 =? 0 then ret (Some 1)
    else
      inverse <- ModInverse (Some a) (Some m0) ;;
      match inverse with
      | None => ret None
      | Some i => ret (Some (i ^ Z.abs e mod Z.abs m0))
      end
  else if m0 =? 0 then ret (Some (a ^ e))
  else ret (Some (a ^ e mod Z.abs m0)).

End big.

(** ** Package [crypto/dsa]: domain parameters *)

Module dsa.

Inductive ParameterSizes : Set :=
| L1024N160
| L2048N224
| L2048N256
| L3072N256.

Record Parameters : Set := { P : big.Int; Q : big.Int; G : big.Int }.

End dsa.

(** ** Package [common]: random integers *)

Module common.

(** Modelled from the spec: [common.GetRandomInt], whose file is not among
    the sources at hand.  The randomness source yields a uniform random
    integer in [[0, bound)]; [draw] is the entropy consumed, so that each
    value of the range is the outcome of some draw and no other value is.
    An empty range ([max <= 0]) has no outcome: [rand.Int] panics. *)
Definition GetRandomInt (draw : Z) (max : big.Int) : result big.Int :=
  m <- big.deref max ;;
  if m <=? 0 then Panic argument_not_positive
  else ret (Some (draw mod m)).

End common.

(** ** Package [groups]: the Schnorr group *)

Module groups.

(** [SchnorrGroup] is a cyclic group in modular arithmetic. *)
Record SchnorrGroup : Set := {
  P : big.Int; (* modulus of the group *)
  G : big.Int; (* generator of subgroup *)
  Q : big.Int  (* order of G *)
}.

Section Generation.

(** [dsa.GenerateParameters(&params, rand.Reader, sizes)]: the parameters
    it leaves in [params] and the error it returns.  It belongs to Go's
    library and draws from [rand.Reader]; any behaviour is allowed. *)
Variable GenerateParameters :
  dsa.Parameters -> dsa.ParameterSizes -> dsa.Parameters * option error.

(** [NewSchnorrGroup] generates a random SchnorrGroup; the result is the
    pair of the group pointer (nil on failure) and the error.  A Go [int]
    is a [Z] here; the three tests either choose the sizes or return. *)
Definition NewSchnorrGroup (qBitLength : Z)
  : option SchnorrGroup * option error :=
  (* the code after the choice of [sizes] *)
  let generate (sizes : dsa.ParameterSizes) :=
    let params := {| dsa.P := None; dsa.Q := None; dsa.G := None |} in
    let '(params, err) := GenerateParameters params sizes in
    match err with
    | Some err => (None, Some err)
    | None =>
        (Some {| P := dsa.P params; G := dsa.G params; Q := dsa.Q params |},
         None)
    end in
  if qBitLength =? 160 then generate dsa.L1024N160
  else if qBitLength =? 224 then generate dsa.L2048N224
  else if qBitLength =? 256 then generate dsa.L2048N256
  else
    let err :=
      fmt.Errorf
        "generating Schnorr primes for bit length %d is not supported"%string
        [qBitLength] in
    (None, Some err).

End Generation.

Definition NewSchnorrGroupFromParams (p g q : big.Int) : SchnorrGroup :=
  {| P := p; G := g; Q := q |}.

(** [Add] computes x + y mod group.P. *)
Definition Add (group : SchnorrGroup) (x y : big.Int) : result big.Int :=
  r <- big.Add x y ;;
  r <- big.Mod r (P group) ;;
  ret r.

(** [Mul] computes x * y mod group.P. *)
Definition Mul (group : SchnorrGroup) (x y : big.Int) : result big.Int :=
  r <- big.Mul x y ;;
  big.Mod r (P group).

(** [Inv] computes the inverse of x modulo group.P. *)
Definition Inv (group : SchnorrGroup) (x : big.Int) : result big.Int :=
  big.ModInverse x (P group).

(** [Exp] computes base^exponent mod group.P. *)
Definition Exp (group : SchnorrGroup) (base exponent : big.Int)
  : result big.Int :=
  s <- big.Sign exponent ;;
  if s =? -1 then (* exponent is negative *)
    expAbs <- big.Abs exponent ;;
    t <- big.Exp base expAbs (P group) ;;
    Inv group t
  else
    big.Exp base exponent (P group).

(** [GetRandomElement] returns a random element of the group; [draw] is
    the entropy that [common.GetRandomInt] consumes. *)
Definition GetRandomElement (group : SchnorrGroup) (draw : Z)
  : result big.Int :=
  r <- common.GetRandomInt draw (Q group) ;;
  el <- Exp group (G group) r ;;
  ret el.

(** [IsElementInGroup]: x is in the group when x^group.Q = 1 mod group.P. *)
Definition IsElementInGroup (group : SchnorrGroup) (x : big.Int)
  : result bool :=
  check <- Exp group x (Q group) ;; (* should be 1 *)
  c <- big.Cmp check (big.NewInt 1) ;;
  ret (c =? 0).

End groups.

(** ** Properties under test

    The compositions that the testable properties of the specification
    are written with. *)

(** [Mul(x, Inv(x))]. *)
Definition Mul_Inv (group : groups.SchnorrGroup) (x : Z) : result big.Int :=
  xInv <- groups.Inv group (Some x) ;;
  groups.Mul group (Some x) xInv.

(** [Mul(Exp(b, e), Exp(b, -e))]. *)
Definition Mul_Exp_ExpNeg (group : groups.SchnorrGroup) (b e : Z)
  : result big.Int :=
  l <- groups.Exp group (Some b) (Some e) ;;
  minus_e <- big.Neg (Some e) ;;
  r <- groups.Exp group (Some b) minus_e ;;
  groups.Mul group l r.

(** A small Schnorr group: 7 = 2 * 3 + 1 and 2 has order 3 modulo 7. *)

Definition Z7 : groups.SchnorrGroup :=
  groups.NewSchnorrGroupFromParams (Some 7) (Some 2) (Some 3).

(** The same numbers at the degenerate modulus 1. *)
Definition Z1 : groups.SchnorrGroup :=
  groups.NewSchnorrGroupFromParams (Some 1) (Some 2) (Some 3).

(** ** Concrete runs *)

Example Z7_Exp_pos : groups.Exp Z7 (Some 3) (Some 4) = Ok (Some 4).
Proof. reflexivity. Qed.

Example Z7_Exp_neg : groups.Exp Z7 (Some 3) (Some (-1)) = Ok (Some 5).
Proof. reflexivity. Qed.

Example Z7_Inv_zero : groups.Inv Z7 (Some 0) = Ok None.
Proof. reflexivity. Qed.

Example Z7_member : groups.IsElementInGroup Z7 (Some 4) = Ok true.
Proof. reflexivity. Qed.

Example Z7_not_member : groups.IsElementInGroup Z7 (Some 3) = Ok false.
Proof. reflexivity. Qed.

Example Z7_Add_neg : groups.Add Z7 (Some (-9)) (Some 1) = Ok (Some 6).
Proof. reflexivity. Qed.

Example Z7_GetRandomElement : groups.GetRandomElement Z7 5 = Ok (Some 4).
Proof. reflexivity. Qed.

Example Z7_Mul_nil :
  groups.Mul Z7 (Some 3) None = Panic nil_pointer_dereference.
Proof. reflexivity. Qed.

(** At the modulus 1 every power is 0, never 1. *)
Example Z1_not_member : groups.IsElementInGroup Z1 (Some 4) = Ok false.
Proof. reflexivity. Qed.

Example prime_7 : Z.prime 7.
Proof.
  split; [lia |]. intros n Hn [k Hk].
  assert (C : n = 2 \/ n = 3 \/ n = 4 \/ n = 5 \/ n = 6) by lia.
  destruct C as [-> | [-> | [-> | [-> | ->]]]]; lia.
Qed.

Example Errorf_100 :
  Error (fmt.Errorf "bit length %d is not supported"%string [100])
  = "bit length 100 is not supported"%string.
Proof. reflexivity. Qed.

(** ** Facts about the [math/big] operations at a positive modulus *)

Section PositiveModulus.

Variable p : Z.
Hypothesis p_pos : 0 < p.

Lemma big_Mod_pos (x : Z) :
  big.Mod (Some x) (Some p) = Ok (Some (x mod p)).
Proof.
  unfold big.Mod; cbn.
  destruct (Z.eqb_spec p 0) as [E | _]; [lia |].
  now rewrite Z.abs_eq by lia.
Qed.

Lemma big_Exp_nonneg (x e : Z) :
  0 <= e -> big.Exp (Some x) (Some e) (Some p) = Ok (Some (x ^ e mod p)).
Proof.
  intros He. unfold big.Exp; cbn.
  destruct (Z.ltb_spec e 0) as [C | _]; [lia |].
  destruct (Z.eqb_spec p 0) as [E | _]; [lia |].
  now rewrite Z.abs_eq by lia.
Qed.

Lemma big_ModInverse_pos (x : Z) :
  big.ModInverse (Some x) (Some p)
  = Ok (if Z.gcd x p =? 1 then Some (Z.invmod x p) else None).
Proof.
  unfold big.ModInverse; cbn [big.deref bind ret].
  rewrite (Z.abs_eq p) by lia.
  destruct (Z.ltb_spec x 0) as [Hneg | Hnn].
  - rewrite big_Mod_pos; cbn [big.deref bind ret].
    rewrite Z.gcd_mod_l, Z.invmod_mod_l.
    now destruct (Z.gcd x p =? 1).
  - cbn [bind ret]. now destruct (Z.gcd x p =? 1).
Qed.

End PositiveModulus.

(** ** The operations of a group whose modulus is positive *)

Section Group.

Variable group : groups.SchnorrGroup.
Variable p : Z.
Hypothesis group_P : groups.P group = Some p.
Hypothesis p_pos : 0 < p.

Lemma Add_pos (x y : Z) :
  groups.Add group (Some x) (Some y) = Ok (Some ((x + y) mod p)).
Proof.
  unfold groups.Add. rewrite group_P. cbn [big.Add big.deref bind ret].
  now rewrite big_Mod_pos.
Qed.

Lemma Mul_pos (x y : Z) :
  groups.Mul group (Some x) (Some y) = Ok (Some ((x * y) mod p)).
Proof.
  unfold groups.Mul. rewrite group_P. cbn [big.Mul big.deref bind ret].
  now rewrite big_Mod_pos.
Qed.

Lemma Inv_pos (x : Z) :
  groups.Inv group (Some x)
  = Ok (if Z.gcd x p =? 1 then Some (Z.invmod x p) else None).
Proof.
  unfold groups.Inv. rewrite group_P. now apply big_ModInverse_pos.
Qed.

Lemma Exp_nonneg (b e : Z) :
  0 <= e -> groups.Exp group (Some b) (Some e) = Ok (Some (b ^ e mod p)).
Proof.
  intros He. unfold groups.Exp. rewrite group_P.
  cbn [big.Sign big.deref bind ret].
  destruct (Z.eqb_spec (Z.sgn e) (-1)) as [S | _].
  - apply Z.sgn_neg_iff in S. lia.
  - now apply big_Exp_nonneg.
Qed.

Lemma Exp_neg (b e : Z) :
  e < 0 ->
  groups.Exp group (Some b) (Some e)
  = groups.Inv group (Some (b ^ Z.abs e mod p)).
Proof.
  intros He. unfold groups.Exp. rewrite group_P.
  cbn [big.Sign big.Abs big.deref bind ret].
  rewrite (Z.sgn_neg e He). cbn [Z.eqb Pos.eqb].
  rewrite big_Exp_nonneg by (trivial; apply Z.abs_nonneg).
  cbn [bind]. unfold groups.Inv. now rewrite group_P.
Qed.

Lemma IsElementInGroup_nonneg (q x : Z) :
  groups.Q group = Some q -> 0 <= q ->
  groups.IsElementInGroup group (Some x) = Ok (x ^ q mod p =? 1).
Proof.
  intros group_Q Hq. unfold groups.IsElementInGroup. rewrite group_Q.
  rewrite Exp_nonneg by trivial.
  cbn [bind ret big.Cmp big.NewInt big.deref].
  destruct (Z.compare_spec (x ^ q mod p) 1) as [E | L | L];
    destruct (Z.eqb_spec (x ^ q mod p) 1) as [E' | N]; trivial; lia.
Qed.

(** Powers of a base that is prime to the modulus stay prime to it. *)
Lemma power_coprime (b n : Z) :
  0 <= n -> Z.gcd b p = 1 -> Z.gcd (b ^ n mod p) p = 1.
Proof.
  intros Hn Hb. apply Z.coprime_mod_l_iff. now apply Z.coprime_pow_l.
Qed.

End Group.

(** The sign of the modulus is dropped by [ModInverse]. *)
Lemma big_ModInverse_abs (x n : Z) :
  big.ModInverse (Some x) (Some n) = big.ModInverse (Some x) (Some (Z.abs n)).
Proof.
  unfold big.ModInverse; cbn [big.deref bind ret].
  now rewrite (Z.abs_eq (Z.abs n)) by apply Z.abs_nonneg.
Qed.

Lemma big_ModInverse_nonzero (x n : Z) :
  n <> 0 ->
  big.ModInverse (Some x) (Some n)
  = Ok (if Z.gcd x n =? 1 then Some (Z.invmod x (Z.abs n)) else None).
Proof.
  intros Hn. rewrite big_ModInverse_abs, big_ModInverse_pos by lia.
  now rewrite Z.gcd_abs_r.
Qed.

(** At a zero modulus only 1 has an inverse; a negative argument is
    reduced first, which divides by zero. *)
Lemma big_ModInverse_zero (x : Z) :
  big.ModInverse (Some x) (Some 0)
  = if x <? 0 then Panic division_by_zero
    else Ok (if x =? 1 then Some 1 else None).
Proof.
  unfold big.ModInverse; cbn [big.deref bind ret Z.abs].
  destruct (Z.ltb_spec x 0) as [Hneg | Hnn]; [reflexivity |].
  cbn [bind ret]. rewrite Z.gcd_0_r_nonneg by trivial.
  destruct (Z.eqb_spec x 1) as [-> | _]; reflexivity.
Qed.

(** A prime modulus is prime to every integer it does not divide. *)
Lemma prime_modulus_coprime (p x : Z) :
  Z.prime p -> x mod p <> 0 -> Z.gcd x p = 1.
Proof.
  intros Hp Hx. rewrite Z.gcd_comm.
  apply Z.coprime_prime_l; trivial.
  intros D. apply Hx. apply Z.mod_divide; trivial.
  pose proof (Z.prime_ge_2 p Hp). lia.
Qed.

(** ** Membership test *)

(** C1: in a group with modulus [p > 1] and order [q >= 0], for every
    integer [x] the call [IsElementInGroup(x)] returns, and it returns
    [true] if and only if [x^q] is congruent to [1] modulo [p]. *)
Theorem IsElementInGroup_iff_pow_cong_1
  (group : groups.SchnorrGroup) (p q x : Z)
  (group_P : groups.P group = Some p) (group_Q : groups.Q group = Some q)
  (p_gt_1 : 1 < p) (q_nonneg : 0 <= q) :
  exists b : bool,
    groups.IsElementInGroup group (Some x) = Ok b
    /\ (b = true <-> x ^ q mod p = 1 mod p).
Proof.
  exists (x ^ q mod p =? 1). split.
  - apply IsElementInGroup_nonneg; trivial; lia.
  - rewrite Z.mod_1_l by lia. apply Z.eqb_eq.
Qed.

Lemma IsElementInGroup_iff_pow_cong_1_witness :
  exists b : bool,
    groups.IsElementInGroup Z7 (Some 4) = Ok b
    /\ (b = true <-> 4 ^ 3 mod 7 = 1 mod 7).
Proof.
  apply (IsElementInGroup_iff_pow_cong_1 Z7 7 3 4);
    [reflexivity | reflexivity | lia | lia].
Defined.

(** ** Exponentiation with a negative exponent *)

(** C2: in a group with modulus [p > 0], for every base [b], a negative
    exponent [e] gives [Exp(b, e) = Inv(b^|e| mod p)] and a non-negative
    one gives [Exp(b, e) = b^e mod p]. *)
Theorem Exp_negative_is_Inv_of_power
  (group : groups.SchnorrGroup) (p b e : Z)
  (group_P : groups.P group = Some p) (p_pos : 0 < p) :
  (e < 0 ->
   groups.Exp group (Some b) (Some e)
   = groups.Inv group (Some (b ^ Z.abs e mod p)))
  /\ (0 <= e ->
      groups.Exp group (Some b) (Some e) = Ok (Some (b ^ e mod p))).
Proof.
  split; intros He.
  - now apply Exp_neg.
  - now apply Exp_nonneg.
Qed.

Lemma Exp_negative_is_Inv_of_power_witness :
  (-2 < 0 ->
   groups.Exp Z7 (Some 3) (Some (-2))
   = groups.Inv Z7 (Some (3 ^ Z.abs (-2) mod 7)))
  /\ (0 <= -2 ->
      groups.Exp Z7 (Some 3) (Some (-2)) = Ok (Some (3 ^ (-2) mod 7))).
Proof.
  apply (Exp_negative_is_Inv_of_power Z7 7 3 (-2)); [reflexivity | lia].
Defined.

(** ** Inverse and multiplication *)

(** C5: in a group with modulus [p > 1], for every [x] with
    [gcd(x, p) = 1], [Mul(x, Inv(x))] returns 1. *)
Theorem Mul_Inv_is_one
  (group : groups.SchnorrGroup) (p x : Z)
  (group_P : groups.P group = Some p) (p_gt_1 : 1 < p)
  (coprime : Z.gcd x p = 1) :
  Mul_Inv group x = Ok (Some 1).
Proof.
  unfold Mul_Inv.
  rewrite (Inv_pos group p group_P) by lia.
  rewrite coprime; cbn [Z.eqb Pos.eqb bind].
  rewrite (Mul_pos group p group_P) by lia.
  rewrite Z.mul_comm, Z.invmod_coprime by (trivial; lia).
  reflexivity.
Qed.

Lemma Mul_Inv_is_one_witness : Mul_Inv Z7 3 = Ok (Some 1).
Proof.
  apply (Mul_Inv_is_one Z7 7 3); [reflexivity | lia | reflexivity].
Defined.

(** ** Canonical representatives *)

(** C10: in a group with modulus [p > 0], for all integers [x] and [y],
    negative or large ones included, [Add(x, y)] and [Mul(x, y)] return
    the sum and the product reduced into the range [[0, p)]. *)
Theorem Add_Mul_canonical
  (group : groups.SchnorrGroup) (p x y : Z)
  (group_P : groups.P group = Some p) (p_pos : 0 < p) :
  (exists r, groups.Add group (Some x) (Some y) = Ok (Some r)
             /\ r = (x + y) mod p /\ 0 <= r < p)
  /\ (exists r, groups.Mul group (Some x) (Some y) = Ok (Some r)
                /\ r = (x * y) mod p /\ 0 <= r < p).
Proof.
  split; eexists; (split; [| split; [reflexivity |]]).
  - now apply Add_pos.
  - apply Z.mod_pos_bound; lia.
  - now apply Mul_pos.
  - apply Z.mod_pos_bound; lia.
Qed.

Lemma Add_Mul_canonical_witness :
  (exists r, groups.Add Z7 (Some (-9)) (Some 30) = Ok (Some r)
             /\ r = (-9 + 30) mod 7 /\ 0 <= r < 7)
  /\ (exists r, groups.Mul Z7 (Some (-9)) (Some 30) = Ok (Some r)
                /\ r = (-9 * 30) mod 7 /\ 0 <= r < 7).
Proof.
  apply (Add_Mul_canonical Z7 7 (-9) 30); [reflexivity | lia].
Defined.

(** ** Construction *)

(** C7: for every [qBitLength] other than 160, 224 and 256,
    [NewSchnorrGroup] returns a nil group together with the error
    "generating Schnorr primes for bit length <qBitLength> is not
    supported", whatever the parameter generator would do. *)
Theorem NewSchnorrGroup_unsupported_size
  (GenerateParameters :
     dsa.Parameters -> dsa.ParameterSizes -> dsa.Parameters * option error)
  (qBitLength : Z)
  (not_160 : qBitLength <> 160) (not_224 : qBitLength <> 224)
  (not_256 : qBitLength <> 256) :
  exists err : error,
    groups.NewSchnorrGroup GenerateParameters qBitLength = (None, Some err)
    /\ Error err
       = ("generating Schnorr primes for bit length "
          ++ fmt.itoa qBitLength ++ " is not supported")%string.
Proof.
  unfold groups.NewSchnorrGroup.
  destruct (Z.eqb_spec qBitLength 160) as [E | _]; [contradiction |].
  destruct (Z.eqb_spec qBitLength 224) as [E | _]; [contradiction |].
  destruct (Z.eqb_spec qBitLength 256) as [E | _]; [contradiction |].
  eexists; split; reflexivity.
Qed.

Lemma NewSchnorrGroup_unsupported_size_witness :
  exists err : error,
    groups.NewSchnorrGroup
      (fun params _ => (params, None)) 100 = (None, Some err)
    /\ Error err
       = ("generating Schnorr primes for bit length "
          ++ fmt.itoa 100 ++ " is not supported")%string.
Proof.
  apply (NewSchnorrGroup_unsupported_size (fun params _ => (params, None)) 100);
    lia.
Defined.

(** C8: [NewSchnorrGroupFromParams(P, G, Q)] is total and checks nothing:
    for all inputs, nil pointers and values that form no Schnorr group
    included, it returns the group whose fields are the three inputs. *)
Theorem NewSchnorrGroupFromParams_stores_inputs (p g q : big.Int) :
  exists group : groups.SchnorrGroup,
    groups.NewSchnorrGroupFromParams p g q = group
    /\ groups.P group = p /\ groups.G group = g /\ groups.Q group = q.
Proof.
  eexists; split; [reflexivity |]. now cbn.
Qed.

Example unvalidated_group :
  groups.P (groups.NewSchnorrGroupFromParams (Some 8) (Some 0) (Some 5))
  = Some 8.
Proof. reflexivity. Qed.

(** ** A power times the power of the opposite exponent *)

(** C3, as stated, fails: the base 0 has no inverse modulo 7, so
    [Exp(0, -1)] is nil and [Mul(Exp(0, 1), Exp(0, -1))] dereferences it. *)
Lemma Mul_Exp_ExpNeg_base_zero :
  Mul_Exp_ExpNeg Z7 0 1 = Panic nil_pointer_dereference
  /\ Mul_Exp_ExpNeg Z7 0 1 <> Ok (Some 1).
Proof.
  split; [reflexivity | discriminate].
Qed.

(** C3, amended: in a group with modulus [p > 1], for every base [b] with
    [gcd(b, p) = 1] and every exponent [e], negative ones included,
    [Mul(Exp(b, e), Exp(b, -e))] returns 1. *)
Theorem Mul_Exp_ExpNeg_is_one
  (group : groups.SchnorrGroup) (p b e : Z)
  (group_P : groups.P group = Some p) (p_gt_1 : 1 < p)
  (coprime : Z.gcd b p = 1) :
  Mul_Exp_ExpNeg group b e = Ok (Some 1).
Proof.
  assert (p_pos : 0 < p) by lia.
  unfold Mul_Exp_ExpNeg. cbn [big.Neg big.deref bind ret].
  destruct (Z.lt_trichotomy e 0) as [Neg | [-> | Pos]].
  - rewrite (Exp_neg group p group_P p_pos) by trivial.
    rewrite (Exp_nonneg group p group_P p_pos) by lia.
    rewrite (Inv_pos group p group_P p_pos).
    rewrite (Z.abs_neq e) by lia.
    rewrite (power_coprime p b (- e)) by (trivial; lia).
    cbn [Z.eqb Pos.eqb bind].
    rewrite (Mul_pos group p group_P p_pos).
    rewrite Z.invmod_coprime; trivial; try lia.
    apply power_coprime; trivial; lia.
  - cbn [Z.opp].
    rewrite (Exp_nonneg group p group_P p_pos) by lia. cbn [bind].
    rewrite (Mul_pos group p group_P p_pos).
    rewrite Z.pow_0_r, Z.mod_1_l, Z.mul_1_l, Z.mod_1_l by lia. reflexivity.
  - rewrite (Exp_nonneg group p group_P p_pos) by lia. cbn [bind].
    rewrite (Exp_neg group p group_P p_pos) by lia.
    rewrite (Inv_pos group p group_P p_pos).
    rewrite (Z.abs_neq (- e)), Z.opp_involutive by lia.
    rewrite (power_coprime p b e) by (trivial; lia).
    cbn [Z.eqb Pos.eqb bind].
    rewrite (Mul_pos group p group_P p_pos).
    rewrite Z.mul_comm, Z.invmod_coprime; trivial; try lia.
    apply power_coprime; trivial; lia.
Qed.

Lemma Mul_Exp_ExpNeg_is_one_witness : Mul_Exp_ExpNeg Z7 3 (-2) = Ok (Some 1).
Proof.
  apply (Mul_Exp_ExpNeg_is_one Z7 7 3 (-2)); [reflexivity | lia | reflexivity].
Defined.

(** ** Failure of the inverse *)

(** C4: whenever [gcd(x, p) <> 1], [Inv(x)] returns no integer: it
    returns the nil pointer (and at the modulus 0 it may panic instead).
    With a prime modulus this does not happen to an [x] that the modulus
    does not divide, and so not to an [x] that passes the membership test
    of a group of positive order: [Inv] then returns an integer. *)
Theorem Inv_fails_iff_not_coprime
  (group : groups.SchnorrGroup) (p x : Z)
  (group_P : groups.P group = Some p) :
  (Z.gcd x p <> 1 ->
   (forall v, groups.Inv group (Some x) <> Ok (Some v))
   /\ (p <> 0 -> groups.Inv group (Some x) = Ok None))
  /\ (Z.prime p -> x mod p <> 0 ->
      Z.gcd x p = 1
      /\ groups.Inv group (Some x) = Ok (Some (Z.invmod x p)))
  /\ (Z.prime p ->
      forall q, groups.Q group = Some q -> 0 < q ->
      groups.IsElementInGroup group (Some x) = Ok true ->
      x mod p <> 0).
Proof.
  split; [| split].
  - intros Hgcd.
    assert (Hb : (Z.gcd x p =? 1) = false) by now apply Z.eqb_neq.
    unfold groups.Inv; rewrite group_P.
    destruct (Z.eq_dec p 0) as [-> | Hp].
    + split; [| congruence]. intros v.
      rewrite big_ModInverse_zero.
      destruct (Z.ltb_spec x 0) as [Hneg | Hnn]; [discriminate |].
      rewrite Z.gcd_0_r_nonneg in Hb by trivial. now rewrite Hb.
    + rewrite big_ModInverse_nonzero, Hb by trivial.
      split; [discriminate | reflexivity].
  - intros Hp Hx.
    pose proof (Z.prime_ge_2 p Hp) as Hge.
    pose proof (prime_modulus_coprime p x Hp Hx) as Hgcd.
    split; [trivial |].
    rewrite (Inv_pos group p group_P) by lia.
    now rewrite Hgcd.
  - intros Hp q group_Q Hq Hin Hx.
    pose proof (Z.prime_ge_2 p Hp) as Hge.
    rewrite (IsElementInGroup_nonneg group p group_P) with (q := q) in Hin
      by (trivial; lia).
    injection Hin as Hin. apply Z.eqb_eq in Hin.
    rewrite <- Z.mod_pow_l, Hx, Z.pow_0_l, Z.mod_0_l in Hin by lia.
    discriminate.
Qed.

Lemma Inv_fails_iff_not_coprime_witness :
  (Z.gcd 14 7 <> 1 ->
   (forall v, groups.Inv Z7 (Some 14) <> Ok (Some v))
   /\ (7 <> 0 -> groups.Inv Z7 (Some 14) = Ok None))
  /\ (Z.prime 7 -> 14 mod 7 <> 0 ->
      Z.gcd 14 7 = 1
      /\ groups.Inv Z7 (Some 14) = Ok (Some (Z.invmod 14 7)))
  /\ (Z.prime 7 ->
      forall q, groups.Q Z7 = Some q -> 0 < q ->
      groups.IsElementInGroup Z7 (Some 14) = Ok true ->
      14 mod 7 <> 0).
Proof.
  apply (Inv_fails_iff_not_coprime Z7 7 14); reflexivity.
Defined.

(** ** Random elements *)

(** C6: in a group with modulus [p > 0], generator [g] and order [q],
    every value that [GetRandomElement] returns is [g^r mod p] for some
    [r] in [[0, q)] and, when [g^q mod p = 1], passes [IsElementInGroup];
    with [q > 0] the call returns, whatever is drawn. *)
Theorem GetRandomElement_in_subgroup
  (group : groups.SchnorrGroup) (p g q draw : Z)
  (group_P : groups.P group = Some p) (group_G : groups.G group = Some g)
  (group_Q : groups.Q group = Some q) (p_pos : 0 < p) :
  (forall el, groups.GetRandomElement group draw = Ok el ->
     exists r, 0 <= r < q /\ el = Some (g ^ r mod p)
       /\ (g ^ q mod p = 1 ->
           groups.IsElementInGroup group el = Ok true))
  /\ (0 < q -> exists el, groups.GetRandomElement group draw = Ok el).
Proof.
  unfold groups.GetRandomElement, common.GetRandomInt.
  rewrite group_Q, group_G. cbn [big.deref bind ret].
  destruct (Z.leb_spec q 0) as [Hq | Hq].
  - split; [discriminate | lia].
  - pose proof (Z.mod_pos_bound draw q Hq) as Hr.
    cbn [bind ret].
    rewrite (Exp_nonneg group p group_P p_pos) by lia. cbn [bind].
    split; [| eexists; reflexivity].
    intros el [= <-]. exists (draw mod q).
    split; [trivial | split; [reflexivity |]].
    intros Hg.
    rewrite (IsElementInGroup_nonneg group p group_P p_pos q) by (trivial; lia).
    f_equal. apply Z.eqb_eq.
    assert (p <> 1) by (intros ->; rewrite Z.mod_1_r in Hg; discriminate).
    rewrite Z.mod_pow_l, <- Z.pow_mul_r, Z.mul_comm, Z.pow_mul_r by lia.
    rewrite <- Z.mod_pow_l, Hg, Z.pow_1_l by lia.
    apply Z.mod_1_l; lia.
Qed.

Lemma GetRandomElement_in_subgroup_witness :
  (forall el, groups.GetRandomElement Z7 5 = Ok el ->
     exists r, 0 <= r < 3 /\ el = Some (2 ^ r mod 7)
       /\ (2 ^ 3 mod 7 = 1 ->
           groups.IsElementInGroup Z7 el = Ok true))
  /\ (0 < 3 -> exists el, groups.GetRandomElement Z7 5 = Ok el).
Proof.
  apply (GetRandomElement_in_subgroup Z7 7 2 3 5); [reflexivity .. | lia].
Defined.

(** * Further properties of the group operations

    The laws below are read off [schnorr.go]; they are what the callers
    of the package (the proofs of knowledge over the group) rely on. *)

(** ** Bases prime to the modulus *)

Section Units.

Variable group : groups.SchnorrGroup.
Variable p : Z.
Hypothesis group_P : groups.P group = Some p.
Hypothesis p_gt_1 : 1 < p.

(** Two canonical representatives that agree after multiplication by a
    unit are equal. *)
Lemma unit_cancel (v w c : Z) :
  0 <= v < p -> 0 <= w < p -> Z.gcd c p = 1 ->
  (v * c) mod p = (w * c) mod p -> v = w.
Proof.
  intros Hv Hw Hc E.
  apply Z.cong_iff_0 in E. rewrite <- Z.mul_sub_distr_r in E.
  apply Z.cong_mul_cancel_r_coprime in E; [| lia | exact Hc].
  apply Z.cong_iff_0 in E.
  now rewrite !Z.mod_small in E by lia.
Qed.

(** What [Exp] returns at a base prime to the modulus: a canonical
    representative [v], itself prime to the modulus, that behaves as the
    power [b^e], negative [e] included. *)
Lemma Exp_unit_char (b e : Z) :
  Z.gcd b p = 1 ->
  exists v,
    groups.Exp group (Some b) (Some e) = Ok (Some v)
    /\ 0 <= v < p /\ Z.gcd v p = 1
    /\ forall n, 0 <= n -> 0 <= n + e ->
         (v * b ^ n) mod p = b ^ (n + e) mod p.
Proof.
  intros Hb. assert (p_pos : 0 < p) by lia.
  destruct (Z.lt_ge_cases e 0) as [Hneg | Hnn].
  - pose proof (power_coprime p b (- e) ltac:(lia) Hb) as Ht.
    exists (Z.invmod (b ^ (- e) mod p) p).
    rewrite (Exp_neg group p group_P p_pos) by trivial.
    rewrite (Inv_pos group p group_P p_pos), (Z.abs_neq e) by lia.
    rewrite Ht. cbn [Z.eqb Pos.eqb].
    split; [reflexivity |]. split; [| split].
    + rewrite <- Z.mod_invmod. apply Z.mod_pos_bound; lia.
    + now apply Z.coprime_invmod.
    + intros n Hn Hne.
      replace n with (- e + (n + e)) at 1 by lia.
      rewrite Z.pow_add_r, Z.mul_assoc by lia.
      rewrite <- Z.mul_mod_idemp_l by lia.
      rewrite <- (Z.mul_mod_idemp_r _ (b ^ (- e))) by lia.
      rewrite Z.invmod_coprime by (trivial; lia).
      now rewrite Z.mul_1_l.
  - exists (b ^ e mod p).
    rewrite (Exp_nonneg group p group_P p_pos) by trivial.
    split; [reflexivity |]. split; [| split].
    + apply Z.mod_pos_bound; lia.
    + now apply power_coprime.
    + intros n Hn _.
      rewrite Z.mul_mod_idemp_l, <- Z.pow_add_r by lia.
      now rewrite Z.add_comm.
Qed.

(** Conversely, a canonical representative that behaves as [b^e] at one
    shift [n] is what [Exp] returns. *)
Lemma Exp_unit_unique (b e w n : Z) :
  Z.gcd b p = 1 -> 0 <= w < p -> 0 <= n -> 0 <= n + e ->
  (w * b ^ n) mod p = b ^ (n + e) mod p ->
  groups.Exp group (Some b) (Some e) = Ok (Some w).
Proof.
  intros Hb Hw Hn Hne E.
  destruct (Exp_unit_char b e Hb) as (v & -> & Hv & _ & Hchar).
  do 2 f_equal. apply (unit_cancel v w (b ^ n)); trivial.
  - apply Z.coprime_pow_l; trivial.
  - now rewrite Hchar, E.
Qed.

Lemma Exp_add_unit (b e1 e2 : Z) :
  Z.gcd b p = 1 ->
  (l <- groups.Exp group (Some b) (Some e1) ;;
   r <- groups.Exp group (Some b) (Some e2) ;;
   groups.Mul group l r)
  = groups.Exp group (Some b) (Some (e1 + e2)).
Proof.
  intros Hb. assert (p_pos : 0 < p) by lia.
  destruct (Exp_unit_char b e1 Hb) as (v1 & -> & Hv1 & _ & C1).
  destruct (Exp_unit_char b e2 Hb) as (v2 & -> & Hv2 & _ & C2).
  cbn [bind]. rewrite (Mul_pos group p group_P p_pos).
  symmetry.
  apply (Exp_unit_unique b (e1 + e2) _ (Z.abs e1 + Z.abs e2)); trivial;
    try lia.
  - apply Z.mod_pos_bound; lia.
  - rewrite Z.mul_mod_idemp_l by lia.
    rewrite Z.pow_add_r by lia.
    replace (v1 * v2 * (b ^ Z.abs e1 * b ^ Z.abs e2))
      with ((v1 * b ^ Z.abs e1) * (v2 * b ^ Z.abs e2)) by ring.
    rewrite Z.mul_mod, C1, C2 by lia.
    rewrite <- Z.mul_mod, <- Z.pow_add_r by lia.
    f_equal. f_equal. lia.
Qed.

Lemma cong_mul (a a' c c' : Z) :
  a mod p = a' mod p -> c mod p = c' mod p ->
  (a * c) mod p = (a' * c') mod p.
Proof.
  intros Ha Hc. rewrite Z.mul_mod, Ha, Hc, <- Z.mul_mod by lia. reflexivity.
Qed.

Lemma Exp_mul_unit (b s c : Z) :
  Z.gcd b p = 1 ->
  (h <- groups.Exp group (Some b) (Some s) ;; groups.Exp group h (Some c))
  = groups.Exp group (Some b) (Some (s * c)).
Proof.
  intros Hb.
  destruct (Exp_unit_char b s Hb) as (h & -> & Hh & Hhp & Cs).
  cbn [bind].
  destruct (Exp_unit_char h c Hhp) as (w & -> & Hw & _ & Cw).
  set (N := Z.abs s). set (m := Z.abs c).
  assert (HN : 0 <= N) by apply Z.abs_nonneg.
  assert (Hm : 0 <= m) by apply Z.abs_nonneg.
  assert (HNs : 0 <= N + s) by (unfold N; lia).
  assert (Hmc : 0 <= m + c) by (unfold m; lia).
  (* powers of [h] against powers of [b] *)
  assert (K : forall k, 0 <= k ->
            (h ^ k * b ^ (N * k)) mod p = b ^ ((N + s) * k) mod p).
  { intros k Hk.
    rewrite !Z.pow_mul_r, <- Z.pow_mul_l by lia.
    rewrite <- Z.mod_pow_l, (Cs N HN HNs), Z.mod_pow_l.
    reflexivity. }
  symmetry.
  apply (Exp_unit_unique b (s * c) w ((N + s) * m + N * (m + c)));
    trivial; try nia.
  transitivity ((w * b ^ (N * (m + c)) * (h ^ m * b ^ (N * m))) mod p).
  { rewrite Z.pow_add_r by nia.
    replace (w * (b ^ ((N + s) * m) * b ^ (N * (m + c))))
      with (w * b ^ (N * (m + c)) * b ^ ((N + s) * m)) by ring.
    apply cong_mul; [reflexivity | symmetry; now apply K]. }
  transitivity ((h ^ (m + c) * (b ^ (N * (m + c)) * b ^ (N * m))) mod p).
  { replace (w * b ^ (N * (m + c)) * (h ^ m * b ^ (N * m)))
      with (w * h ^ m * (b ^ (N * (m + c)) * b ^ (N * m))) by ring.
    apply cong_mul; [now apply Cw | reflexivity]. }
  rewrite Z.mul_assoc.
  replace ((N + s) * m + N * (m + c) + s * c)
    with ((N + s) * (m + c) + N * m) by ring.
  rewrite (Z.pow_add_r b ((N + s) * (m + c)) (N * m)) by nia.
  apply cong_mul; [now apply K | reflexivity].
Qed.

Lemma Exp_one (e : Z) :
  groups.Exp group (Some 1) (Some e) = Ok (Some 1).
Proof.
  apply (Exp_unit_unique 1 e 1 (Z.abs e)); try lia.
  - apply Z.gcd_1_l.
  - now rewrite !Z.pow_1_l by lia.
Qed.

(** An integer with a power congruent to 1 is prime to the modulus. *)
Lemma power_one_coprime (x n : Z) :
  0 < n -> x ^ n mod p = 1 -> Z.gcd x p = 1.
Proof.
  intros Hn E.
  assert (E' : x ^ n mod p = 1 mod p) by now rewrite Z.mod_1_l by lia.
  apply Z.cong_iff_ex in E'. destruct E' as [k E'].
  apply Z.divide_1_r_nonneg; [apply Z.gcd_nonneg |].
  replace 1 with (x ^ n - k * p) by lia.
  apply Z.divide_sub_r.
  - replace n with (1 + (n - 1)) by lia.
    rewrite Z.pow_add_r, Z.pow_1_r by lia.
    apply Z.divide_mul_l, Z.gcd_divide_l.
  - apply Z.divide_mul_r, Z.gcd_divide_r.
Qed.

(** Exponents count modulo the order of the base. *)
Lemma pow_period (x n k r : Z) :
  x ^ n mod p = 1 -> 0 <= n -> 0 <= k -> 0 <= r ->
  x ^ (n * k + r) mod p = x ^ r mod p.
Proof.
  intros E Hn Hk Hr.
  rewrite Z.pow_add_r, Z.pow_mul_r by nia.
  rewrite <- Z.mul_mod_idemp_l, <- Z.mod_pow_l, E by lia.
  now rewrite Z.pow_1_l, Z.mod_1_l, Z.mul_1_l by lia.
Qed.

Lemma Exp_mod_order (x n e : Z) :
  0 < n -> x ^ n mod p = 1 ->
  groups.Exp group (Some x) (Some e)
  = groups.Exp group (Some x) (Some (e mod n)).
Proof.
  intros Hn E.
  pose proof (power_one_coprime x n Hn E) as Hx.
  pose proof (Z.mod_pos_bound e n Hn) as Hr.
  assert (p_pos : 0 < p) by lia.
  rewrite (Exp_nonneg group p group_P p_pos x (e mod n)) by lia.
  apply (Exp_unit_unique x e _ (n * Z.abs e)); trivial; try nia.
  - apply Z.mod_pos_bound; lia.
  - rewrite Z.mul_mod_idemp_l, <- Z.pow_add_r by nia.
    rewrite (Z.add_comm (e mod n)), pow_period by (trivial; lia).
    pose proof (Z.div_mod e n ltac:(lia)) as D.
    replace (n * Z.abs e + e) with (n * (Z.abs e + e / n) + e mod n) by lia.
    rewrite pow_period; trivial; nia.
Qed.

End Units.

(** A base that a power of which is prime to the modulus is prime to it. *)
Lemma coprime_of_power (p b n : Z) :
  0 < p -> 0 < n -> Z.gcd (b ^ n mod p) p = 1 -> Z.gcd b p = 1.
Proof.
  intros Hp Hn H.
  rewrite Z.gcd_mod_l in H.
  apply Z.divide_1_r_nonneg; [apply Z.gcd_nonneg |].
  rewrite <- H. apply Z.gcd_greatest.
  - replace n with (1 + (n - 1)) by lia.
    rewrite Z.pow_add_r, Z.pow_1_r by lia.
    apply Z.divide_mul_l, Z.gcd_divide_l.
  - apply Z.gcd_divide_r.
Qed.

(** (x * y) mod p = 1 makes [x] prime to the modulus. *)
Lemma mul_one_coprime (p x y : Z) :
  1 < p -> (x * y) mod p = 1 -> Z.gcd x p = 1.
Proof.
  intros Hp E.
  assert (E' : (x * y) mod p = 1 mod p) by now rewrite Z.mod_1_l by lia.
  apply Z.cong_iff_ex in E'. destruct E' as [k E'].
  apply Z.divide_1_r_nonneg; [apply Z.gcd_nonneg |].
  replace 1 with (x * y - k * p) by lia.
  apply Z.divide_sub_r.
  - apply Z.divide_mul_l, Z.gcd_divide_l.
  - apply Z.divide_mul_r, Z.gcd_divide_r.
Qed.

(** ** Generation of a group *)

(** X1: whatever the bit length and whatever the parameter generator
    does, [NewSchnorrGroup] returns either a group and a nil error, or a
    nil group and an error; never both and never neither. *)
Theorem NewSchnorrGroup_group_xor_error
  (GenerateParameters :
     dsa.Parameters -> dsa.ParameterSizes -> dsa.Parameters * option error)
  (qBitLength : Z) :
  (exists group,
     groups.NewSchnorrGroup GenerateParameters qBitLength
     = (Some group, None))
  \/ (exists err,
        groups.NewSchnorrGroup GenerateParameters qBitLength
        = (None, Some err)).
Proof.
  unfold groups.NewSchnorrGroup.
  destruct (qBitLength =? 160); [| destruct (qBitLength =? 224);
    [| destruct (qBitLength =? 256)]];
    try (destruct (GenerateParameters _ _) as [ps [e |]]); eauto.
Qed.

(** X2: for the bit lengths 160, 224 and 256 the generator is asked for
    the sizes L1024N160, L2048N224 and L2048N256, starting from empty
    parameters; its error is returned as it is, with a nil group, and on
    success the group carries the generated P, G and Q. *)
Theorem NewSchnorrGroup_supported_sizes
  (GenerateParameters :
     dsa.Parameters -> dsa.ParameterSizes -> dsa.Parameters * option error)
  (qBitLength : Z) (sizes : dsa.ParameterSizes)
  (params : dsa.Parameters) (err : option error)
  (supported :
     In (qBitLength, sizes)
        [(160, dsa.L1024N160); (224, dsa.L2048N224); (256, dsa.L2048N256)])
  (generated :
     GenerateParameters {| dsa.P := None; dsa.Q := None; dsa.G := None |} sizes
     = (params, err)) :
  groups.NewSchnorrGroup GenerateParameters qBitLength
  = match err with
    | Some e => (None, Some e)
    | None =>
        (Some {| groups.P := dsa.P params; groups.G := dsa.G params;
                 groups.Q := dsa.Q params |}, None)
    end.
Proof.
  unfold groups.NewSchnorrGroup.
  destruct supported as [E | [E | [E | []]]]; injection E as <- <-;
    cbn [Z.eqb Pos.eqb]; now rewrite generated.
Qed.

Lemma NewSchnorrGroup_supported_sizes_witness :
  groups.NewSchnorrGroup
    (fun (ps : dsa.Parameters) (sz : dsa.ParameterSizes) =>
       match sz with
       | dsa.L2048N224 =>
           ({| dsa.P := Some 7; dsa.Q := Some 3; dsa.G := Some 2 |}, None)
       | _ => (ps, Some {| Error := "no entropy" |})
       end) 224
  = (Some {| groups.P := Some 7; groups.G := Some 2; groups.Q := Some 3 |},
     None).
Proof.
  apply (NewSchnorrGroup_supported_sizes _ 224 dsa.L2048N224
           {| dsa.P := Some 7; dsa.Q := Some 3; dsa.G := Some 2 |} None).
  - right; left; reflexivity.
  - reflexivity.
Defined.

(** ** Ring laws of [Add] and [Mul] *)

(** X3: at a modulus [p > 0], [Add] and [Mul] are commutative and
    associative on all integers. *)
Theorem Add_Mul_comm_assoc
  (group : groups.SchnorrGroup) (p x y z : Z)
  (group_P : groups.P group = Some p) (p_pos : 0 < p) :
  groups.Add group (Some x) (Some y) = groups.Add group (Some y) (Some x)
  /\ groups.Mul group (Some x) (Some y) = groups.Mul group (Some y) (Some x)
  /\ (s <- groups.Add group (Some x) (Some y) ;; groups.Add group s (Some z))
     = (s <- groups.Add group (Some y) (Some z) ;; groups.Add group (Some x) s)
  /\ (m <- groups.Mul group (Some x) (Some y) ;; groups.Mul group m (Some z))
     = (m <- groups.Mul group (Some y) (Some z) ;; groups.Mul group (Some x) m).
Proof.
  rewrite !(Add_pos group p group_P p_pos), !(Mul_pos group p group_P p_pos).
  cbn [bind].
  rewrite !(Add_pos group p group_P p_pos), !(Mul_pos group p group_P p_pos).
  rewrite Z.add_mod_idemp_l, Z.add_mod_idemp_r by lia.
  rewrite Z.mul_mod_idemp_l, Z.mul_mod_idemp_r by lia.
  repeat split; do 2 f_equal; apply (f_equal (fun a => a mod p)); ring.
Qed.

Lemma Add_Mul_comm_assoc_witness :
  groups.Add Z7 (Some 5) (Some (-3)) = groups.Add Z7 (Some (-3)) (Some 5)
  /\ groups.Mul Z7 (Some 5) (Some (-3)) = groups.Mul Z7 (Some (-3)) (Some 5)
  /\ (s <- groups.Add Z7 (Some 5) (Some (-3)) ;; groups.Add Z7 s (Some 20))
     = (s <- groups.Add Z7 (Some (-3)) (Some 20) ;; groups.Add Z7 (Some 5) s)
  /\ (m <- groups.Mul Z7 (Some 5) (Some (-3)) ;; groups.Mul Z7 m (Some 20))
     = (m <- groups.Mul Z7 (Some (-3)) (Some 20) ;; groups.Mul Z7 (Some 5) m).
Proof.
  apply (Add_Mul_comm_assoc Z7 7 5 (-3) 20); [reflexivity | lia].
Defined.

(** X4: at a modulus [p > 0], [Mul] distributes over [Add]. *)
Theorem Mul_distributes_over_Add
  (group : groups.SchnorrGroup) (p x y z : Z)
  (group_P : groups.P group = Some p) (p_pos : 0 < p) :
  (s <- groups.Add group (Some y) (Some z) ;; groups.Mul group (Some x) s)
  = (a <- groups.Mul group (Some x) (Some y) ;;
     b <- groups.Mul group (Some x) (Some z) ;;
     groups.Add group a b).
Proof.
  rewrite (Add_pos group p group_P p_pos), !(Mul_pos group p group_P p_pos).
  cbn [bind].
  rewrite (Add_pos group p group_P p_pos), (Mul_pos group p group_P p_pos).
  rewrite Z.mul_mod_idemp_r, <- Z.add_mod by lia.
  now rewrite Z.mul_add_distr_l.
Qed.

Lemma Mul_distributes_over_Add_witness :
  (s <- groups.Add Z7 (Some 6) (Some (-10)) ;; groups.Mul Z7 (Some 4) s)
  = (a <- groups.Mul Z7 (Some 4) (Some 6) ;;
     b <- groups.Mul Z7 (Some 4) (Some (-10)) ;;
     groups.Add Z7 a b).
Proof.
  apply (Mul_distributes_over_Add Z7 7 4 6 (-10)); [reflexivity | lia].
Defined.

(** X5: at a modulus [p > 0], [Add] and [Mul] only see their arguments
    modulo [p]: congruent arguments give the same result. *)
Theorem Add_Mul_respect_congruence
  (group : groups.SchnorrGroup) (p x x' y y' : Z)
  (group_P : groups.P group = Some p) (p_pos : 0 < p)
  (cong_x : x mod p = x' mod p) (cong_y : y mod p = y' mod p) :
  groups.Add group (Some x) (Some y) = groups.Add group (Some x') (Some y')
  /\ groups.Mul group (Some x) (Some y) = groups.Mul group (Some x') (Some y').
Proof.
  rewrite !(Add_pos group p group_P p_pos), !(Mul_pos group p group_P p_pos).
  rewrite (Z.add_mod x), (Z.mul_mod x), cong_x, cong_y by lia.
  now rewrite <- Z.add_mod, <- Z.mul_mod by lia.
Qed.

Lemma Add_Mul_respect_congruence_witness :
  groups.Add Z7 (Some 10) (Some (-1)) = groups.Add Z7 (Some 3) (Some 6)
  /\ groups.Mul Z7 (Some 10) (Some (-1)) = groups.Mul Z7 (Some 3) (Some 6).
Proof.
  apply (Add_Mul_respect_congruence Z7 7 10 3 (-1) 6);
    [reflexivity | lia | reflexivity | reflexivity].
Defined.

(** ** Laws of exponents *)

(** X6: at a modulus [p > 1], [Mul(Exp(b, e1), Exp(b, e2))] is
    [Exp(b, e1 + e2)], for every base when both exponents are
    non-negative, and for all exponents when the base is prime to [p]. *)
Theorem Exp_exponent_sum
  (group : groups.SchnorrGroup) (p b e1 e2 : Z)
  (group_P : groups.P group = Some p) (p_gt_1 : 1 < p)
  (regime : (0 <= e1 /\ 0 <= e2) \/ Z.gcd b p = 1) :
  (l <- groups.Exp group (Some b) (Some e1) ;;
   r <- groups.Exp group (Some b) (Some e2) ;;
   groups.Mul group l r)
  = groups.Exp group (Some b) (Some (e1 + e2)).
Proof.
  assert (p_pos : 0 < p) by lia.
  destruct regime as [[H1 H2] | Hb].
  - rewrite !(Exp_nonneg group p group_P p_pos) by lia. cbn [bind].
    rewrite (Mul_pos group p group_P p_pos).
    now rewrite <- Z.mul_mod, <- Z.pow_add_r by lia.
  - now apply (Exp_add_unit group p group_P p_gt_1).
Qed.

Lemma Exp_exponent_sum_witness :
  (l <- groups.Exp Z7 (Some 3) (Some 5) ;;
   r <- groups.Exp Z7 (Some 3) (Some (-8)) ;;
   groups.Mul Z7 l r)
  = groups.Exp Z7 (Some 3) (Some (5 + -8)).
Proof.
  apply (Exp_exponent_sum Z7 7 3 5 (-8)); [reflexivity | lia |].
  right; reflexivity.
Defined.

(** X7: at a modulus [p > 1], [Exp(Exp(b, s), c)] is [Exp(b, s * c)],
    for every base when both exponents are non-negative, and for all
    exponents when the base is prime to [p]. *)
Theorem Exp_exponent_product
  (group : groups.SchnorrGroup) (p b s c : Z)
  (group_P : groups.P group = Some p) (p_gt_1 : 1 < p)
  (regime : (0 <= s /\ 0 <= c) \/ Z.gcd b p = 1) :
  (h <- groups.Exp group (Some b) (Some s) ;; groups.Exp group h (Some c))
  = groups.Exp group (Some b) (Some (s * c)).
Proof.
  assert (p_pos : 0 < p) by lia.
  destruct regime as [[H1 H2] | Hb].
  - rewrite !(Exp_nonneg group p group_P p_pos) by nia. cbn [bind].
    rewrite (Exp_nonneg group p group_P p_pos) by lia.
    now rewrite Z.mod_pow_l, Z.pow_mul_r by lia.
  - now apply (Exp_mul_unit group p group_P p_gt_1).
Qed.

Lemma Exp_exponent_product_witness :
  (h <- groups.Exp Z7 (Some 3) (Some (-2)) ;; groups.Exp Z7 h (Some 5))
  = groups.Exp Z7 (Some 3) (Some (-2 * 5)).
Proof.
  apply (Exp_exponent_product Z7 7 3 (-2) 5); [reflexivity | lia |].
  right; reflexivity.
Defined.

(** X8: the verification equation of a Schnorr proof.  At a modulus
    [p > 1] and a base [g] prime to [p], for all integers [r], [c]
    and [s], [Mul(Exp(g, r), Exp(Exp(g, s), c))] is
    [Exp(g, r + c * s)]. *)
Theorem Exp_response_equation
  (group : groups.SchnorrGroup) (p g r c s : Z)
  (group_P : groups.P group = Some p) (p_gt_1 : 1 < p)
  (coprime : Z.gcd g p = 1) :
  (t <- groups.Exp group (Some g) (Some r) ;;
   y <- groups.Exp group (Some g) (Some s) ;;
   yc <- groups.Exp group y (Some c) ;;
   groups.Mul group t yc)
  = groups.Exp group (Some g) (Some (r + c * s)).
Proof.
  pose proof (Exp_mul_unit group p group_P p_gt_1 g s c coprime) as M.
  pose proof (Exp_add_unit group p group_P p_gt_1 g r (s * c) coprime) as A.
  destruct (Exp_unit_char group p group_P p_gt_1 g r coprime)
    as (t & Et & _).
  destruct (Exp_unit_char group p group_P p_gt_1 g s coprime)
    as (y & Ey & _).
  rewrite Et, Ey in *. cbn [bind] in *.
  rewrite M, A. now rewrite (Z.mul_comm c s).
Qed.

Lemma Exp_response_equation_witness :
  (t <- groups.Exp Z7 (Some 2) (Some 5) ;;
   y <- groups.Exp Z7 (Some 2) (Some (-4)) ;;
   yc <- groups.Exp Z7 y (Some 6) ;;
   groups.Mul Z7 t yc)
  = groups.Exp Z7 (Some 2) (Some (5 + 6 * -4)).
Proof.
  apply (Exp_response_equation Z7 7 2 5 6 (-4));
    [reflexivity | lia | reflexivity].
Defined.

(** X9: at a modulus [p > 0] and a negative exponent [e], [Exp(b, e)]
    returns the nil pointer exactly when the base is not prime to [p];
    otherwise it returns the [v] in [[0, p)] with [v * b^(-e)]
    congruent to 1. *)
Theorem Exp_negative_nil_iff
  (group : groups.SchnorrGroup) (p b e : Z)
  (group_P : groups.P group = Some p) (p_pos : 0 < p) (e_neg : e < 0) :
  (Z.gcd b p <> 1 -> groups.Exp group (Some b) (Some e) = Ok None)
  /\ (Z.gcd b p = 1 ->
      exists v, groups.Exp group (Some b) (Some e) = Ok (Some v)
                /\ 0 <= v < p /\ (v * b ^ (- e)) mod p = 1 mod p).
Proof.
  rewrite (Exp_neg group p group_P p_pos) by trivial.
  rewrite (Inv_pos group p group_P p_pos), (Z.abs_neq e) by lia.
  split; intros Hb.
  - destruct (Z.eqb_spec (Z.gcd (b ^ (- e) mod p) p) 1) as [E | _];
      [| reflexivity].
    apply coprime_of_power in E; lia.
  - pose proof (power_coprime p b (- e) ltac:(lia) Hb) as Ht.
    rewrite Ht. cbn [Z.eqb Pos.eqb]. eexists; split; [reflexivity |].
    split.
    + rewrite <- Z.mod_invmod. apply Z.mod_pos_bound; lia.
    + rewrite <- Z.mul_mod_idemp_r by lia.
      now apply Z.invmod_coprime'.
Qed.

Lemma Exp_negative_nil_iff_witness :
  (Z.gcd 14 7 <> 1 -> groups.Exp Z7 (Some 14) (Some (-3)) = Ok None)
  /\ (Z.gcd 14 7 = 1 ->
      exists v, groups.Exp Z7 (Some 14) (Some (-3)) = Ok (Some v)
                /\ 0 <= v < 7 /\ (v * 14 ^ (- -3)) mod 7 = 1 mod 7).
Proof.
  apply (Exp_negative_nil_iff Z7 7 14 (-3)); [reflexivity | lia | lia].
Defined.

(** X10: at a modulus [p > 0], [Exp] only sees its base modulo [p]
    (negative exponents included), and what [Exp] and [Inv] return, when
    it is not nil, is a canonical representative in [[0, p)]. *)
Theorem Exp_Inv_canonical
  (group : groups.SchnorrGroup) (p b b' e : Z)
  (group_P : groups.P group = Some p) (p_pos : 0 < p)
  (cong_b : b mod p = b' mod p) :
  groups.Exp group (Some b) (Some e) = groups.Exp group (Some b') (Some e)
  /\ (forall v, groups.Exp group (Some b) (Some e) = Ok (Some v) ->
        0 <= v < p)
  /\ (forall v, groups.Inv group (Some b) = Ok (Some v) -> 0 <= v < p).
Proof.
  assert (Hinv : forall x v, groups.Inv group (Some x) = Ok (Some v) ->
                   0 <= v < p).
  { intros x v. rewrite (Inv_pos group p group_P p_pos).
    destruct (Z.gcd x p =? 1); intros [= <-].
    rewrite <- Z.mod_invmod. apply Z.mod_pos_bound; lia. }
  split; [| split; [| apply Hinv]].
  - destruct (Z.lt_ge_cases e 0) as [Hneg | Hnn].
    + rewrite !(Exp_neg group p group_P p_pos) by trivial.
      now rewrite <- Z.mod_pow_l, cong_b, Z.mod_pow_l.
    + rewrite !(Exp_nonneg group p group_P p_pos) by trivial.
      now rewrite <- Z.mod_pow_l, cong_b, Z.mod_pow_l.
  - intros v. destruct (Z.lt_ge_cases e 0) as [Hneg | Hnn].
    + rewrite (Exp_neg group p group_P p_pos) by trivial. apply Hinv.
    + rewrite (Exp_nonneg group p group_P p_pos) by trivial.
      intros [= <-]. apply Z.mod_pos_bound; lia.
Qed.

Lemma Exp_Inv_canonical_witness :
  groups.Exp Z7 (Some 10) (Some (-2)) = groups.Exp Z7 (Some (-4)) (Some (-2))
  /\ (forall v, groups.Exp Z7 (Some 10) (Some (-2)) = Ok (Some v) ->
        0 <= v < 7)
  /\ (forall v, groups.Inv Z7 (Some 10) = Ok (Some v) -> 0 <= v < 7).
Proof.
  apply (Exp_Inv_canonical Z7 7 10 (-4) (-2));
    [reflexivity | lia | reflexivity].
Defined.

(** ** The inverse *)

(** X11: at a modulus [p > 1] and for [x] prime to [p], inverting twice
    gives back [x], reduced modulo [p]. *)
Theorem Inv_involutive
  (group : groups.SchnorrGroup) (p x : Z)
  (group_P : groups.P group = Some p) (p_gt_1 : 1 < p)
  (coprime : Z.gcd x p = 1) :
  (i <- groups.Inv group (Some x) ;; groups.Inv group i)
  = Ok (Some (x mod p)).
Proof.
  assert (p_pos : 0 < p) by lia.
  pose proof (Z.coprime_invmod x p coprime) as Hi.
  rewrite (Inv_pos group p group_P p_pos), coprime.
  cbn [Z.eqb Pos.eqb bind].
  rewrite (Inv_pos group p group_P p_pos), Hi. cbn [Z.eqb Pos.eqb].
  do 2 f_equal.
  apply (unit_cancel p p_gt_1 _ _ (Z.invmod x p)); trivial.
  - rewrite <- Z.mod_invmod. apply Z.mod_pos_bound; lia.
  - apply Z.mod_pos_bound; lia.
  - rewrite Z.mul_mod_idemp_l, (Z.mul_comm x) by lia.
    now rewrite !Z.invmod_coprime by (trivial; lia).
Qed.

Lemma Inv_involutive_witness :
  (i <- groups.Inv Z7 (Some 10) ;; groups.Inv Z7 i) = Ok (Some (10 mod 7)).
Proof.
  apply (Inv_involutive Z7 7 10); [reflexivity | lia | reflexivity].
Defined.

(** X12: at a modulus [p > 1], the inverse is unique: when [Mul(x, y)]
    is 1 for a canonical [y] in [[0, p)], [Inv(x)] returns this [y]. *)
Theorem Inv_unique
  (group : groups.SchnorrGroup) (p x y : Z)
  (group_P : groups.P group = Some p) (p_gt_1 : 1 < p)
  (canonical : 0 <= y < p)
  (product : groups.Mul group (Some x) (Some y) = Ok (Some 1)) :
  groups.Inv group (Some x) = Ok (Some y).
Proof.
  assert (p_pos : 0 < p) by lia.
  rewrite (Mul_pos group p group_P p_pos) in product.
  injection product as product.
  pose proof (mul_one_coprime p x y p_gt_1 product) as Hx.
  rewrite (Inv_pos group p group_P p_pos), Hx. cbn [Z.eqb Pos.eqb].
  do 2 f_equal.
  apply (unit_cancel p p_gt_1 _ _ x); trivial.
  - rewrite <- Z.mod_invmod. apply Z.mod_pos_bound; lia.
  - rewrite Z.invmod_coprime by (trivial; lia).
    now rewrite Z.mul_comm.
Qed.

Lemma Inv_unique_witness : groups.Inv Z7 (Some 3) = Ok (Some 5).
Proof.
  apply (Inv_unique Z7 7 3 5); [reflexivity | lia | lia | reflexivity].
Defined.

(** ** The subgroup of the elements that pass the membership test *)

Section Subgroup.

Variable group : groups.SchnorrGroup.
Variables p q : Z.
Hypothesis group_P : groups.P group = Some p.
Hypothesis group_Q : groups.Q group = Some q.
Hypothesis p_pos : 0 < p.
Hypothesis q_nonneg : 0 <= q.

(** A passed test gives the congruence, and a modulus above 1. *)
Lemma member_pow (x : Z) :
  groups.IsElementInGroup group (Some x) = Ok true ->
  x ^ q mod p = 1 /\ 1 < p.
Proof.
  rewrite (IsElementInGroup_nonneg group p group_P p_pos q) by trivial.
  intros [= E]. apply Z.eqb_eq in E. split; [trivial |].
  destruct (Z.eq_dec p 1) as [-> | ]; [| lia].
  rewrite Z.mod_1_r in E. discriminate.
Qed.

Lemma pow_member (x : Z) :
  x ^ q mod p = 1 -> groups.IsElementInGroup group (Some x) = Ok true.
Proof.
  intros E.
  rewrite (IsElementInGroup_nonneg group p group_P p_pos q) by trivial.
  f_equal. now apply Z.eqb_eq.
Qed.

End Subgroup.

(** X13: the elements that pass [IsElementInGroup] are closed under
    [Mul] (modulus [p > 0], order [q >= 0]). *)
Theorem IsElementInGroup_closed_Mul
  (group : groups.SchnorrGroup) (p q x y : Z)
  (group_P : groups.P group = Some p) (group_Q : groups.Q group = Some q)
  (p_pos : 0 < p) (q_nonneg : 0 <= q)
  (member_x : groups.IsElementInGroup group (Some x) = Ok true)
  (member_y : groups.IsElementInGroup group (Some y) = Ok true) :
  (m <- groups.Mul group (Some x) (Some y) ;;
   groups.IsElementInGroup group m) = Ok true.
Proof.
  apply (member_pow group p q group_P group_Q p_pos q_nonneg) in member_x.
  apply (member_pow group p q group_P group_Q p_pos q_nonneg) in member_y.
  destruct member_x as [Ex Hp], member_y as [Ey _].
  rewrite (Mul_pos group p group_P p_pos). cbn [bind].
  apply (pow_member group p q group_P group_Q p_pos q_nonneg).
  rewrite Z.mod_pow_l, Z.pow_mul_l, Z.mul_mod, Ex, Ey by lia.
  now rewrite Z.mul_1_l, Z.mod_1_l.
Qed.

Lemma IsElementInGroup_closed_Mul_witness :
  (m <- groups.Mul Z7 (Some 2) (Some 4) ;; groups.IsElementInGroup Z7 m)
  = Ok true.
Proof.
  apply (IsElementInGroup_closed_Mul Z7 7 3 2 4);
    [reflexivity | reflexivity | lia | lia | reflexivity | reflexivity].
Defined.

(** X14: with an order [q > 0], the inverse of an element that passes
    [IsElementInGroup] exists and passes it too. *)
Theorem IsElementInGroup_closed_Inv
  (group : groups.SchnorrGroup) (p q x : Z)
  (group_P : groups.P group = Some p) (group_Q : groups.Q group = Some q)
  (p_pos : 0 < p) (q_pos : 0 < q)
  (member_x : groups.IsElementInGroup group (Some x) = Ok true) :
  (i <- groups.Inv group (Some x) ;; groups.IsElementInGroup group i)
  = Ok true.
Proof.
  apply (member_pow group p q group_P group_Q p_pos ltac:(lia)) in member_x.
  destruct member_x as [Ex Hp].
  pose proof (power_one_coprime p Hp x q q_pos Ex) as Hx.
  rewrite (Inv_pos group p group_P p_pos), Hx. cbn [Z.eqb Pos.eqb bind].
  apply (pow_member group p q group_P group_Q p_pos ltac:(lia)).
  apply (unit_cancel p Hp _ _ (x ^ q)).
  - apply Z.mod_pos_bound; lia.
  - lia.
  - apply Z.coprime_pow_l; trivial; lia.
  - rewrite Z.mul_mod_idemp_l, <- Z.pow_mul_l by lia.
    rewrite <- Z.mod_pow_l, Z.invmod_coprime by (trivial; lia).
    now rewrite Z.pow_1_l, Z.mul_1_l, Ex, Z.mod_1_l by lia.
Qed.

Lemma IsElementInGroup_closed_Inv_witness :
  (i <- groups.Inv Z7 (Some 2) ;; groups.IsElementInGroup Z7 i) = Ok true.
Proof.
  apply (IsElementInGroup_closed_Inv Z7 7 3 2);
    [reflexivity | reflexivity | lia | lia | reflexivity].
Defined.

(** X15: with an order [q > 0], every power, of negative exponent too,
    of an element that passes [IsElementInGroup] passes it. *)
Theorem IsElementInGroup_closed_Exp
  (group : groups.SchnorrGroup) (p q x e : Z)
  (group_P : groups.P group = Some p) (group_Q : groups.Q group = Some q)
  (p_pos : 0 < p) (q_pos : 0 < q)
  (member_x : groups.IsElementInGroup group (Some x) = Ok true) :
  (v <- groups.Exp group (Some x) (Some e) ;;
   groups.IsElementInGroup group v) = Ok true.
Proof.
  apply (member_pow group p q group_P group_Q p_pos ltac:(lia)) in member_x.
  destruct member_x as [Ex Hp].
  pose proof (power_one_coprime p Hp x q q_pos Ex) as Hx.
  pose proof (Exp_mul_unit group p group_P Hp x e q Hx) as M1.
  pose proof (Exp_mul_unit group p group_P Hp x q e Hx) as M2.
  destruct (Exp_unit_char group p group_P Hp x e Hx) as (v & Ev & _).
  rewrite Ev in *. cbn [bind] in *.
  rewrite (Exp_nonneg group p group_P p_pos) in M1, M2 by lia.
  rewrite Ex in M2. cbn [bind] in M2.
  rewrite (Exp_one group p group_P Hp), (Z.mul_comm q e), <- M1 in M2.
  injection M2 as M2.
  now apply (pow_member group p q group_P group_Q p_pos ltac:(lia)).
Qed.

Lemma IsElementInGroup_closed_Exp_witness :
  (v <- groups.Exp Z7 (Some 2) (Some (-5)) ;; groups.IsElementInGroup Z7 v)
  = Ok true.
Proof.
  apply (IsElementInGroup_closed_Exp Z7 7 3 2 (-5));
    [reflexivity | reflexivity | lia | lia | reflexivity].
Defined.

(** X16: with an order [q > 0], the exponent of an element that passes
    [IsElementInGroup] counts modulo [q]: [Exp(x, e)] is
    [Exp(x, e mod q)], for negative [e] too. *)
Theorem Exp_exponent_mod_Q
  (group : groups.SchnorrGroup) (p q x e : Z)
  (group_P : groups.P group = Some p) (group_Q : groups.Q group = Some q)
  (p_pos : 0 < p) (q_pos : 0 < q)
  (member_x : groups.IsElementInGroup group (Some x) = Ok true) :
  groups.Exp group (Some x) (Some e)
  = groups.Exp group (Some x) (Some (e mod q)).
Proof.
  apply (member_pow group p q group_P group_Q p_pos ltac:(lia)) in member_x.
  destruct member_x as [Ex Hp].
  now apply (Exp_mod_order group p group_P Hp).
Qed.

Lemma Exp_exponent_mod_Q_witness :
  groups.Exp Z7 (Some 4) (Some (-8)) = groups.Exp Z7 (Some 4) (Some (-8 mod 3)).
Proof.
  apply (Exp_exponent_mod_Q Z7 7 3 4 (-8));
    [reflexivity | reflexivity | lia | lia | reflexivity].
Defined.

(** X17: [IsElementInGroup] does not ask for a canonical representative:
    at a modulus [p > 0] and an order [q >= 0], [x + k * p] passes
    exactly when [x] does. *)
Theorem IsElementInGroup_any_representative
  (group : groups.SchnorrGroup) (p q x k : Z)
  (group_P : groups.P group = Some p) (group_Q : groups.Q group = Some q)
  (p_pos : 0 < p) (q_nonneg : 0 <= q) :
  groups.IsElementInGroup group (Some (x + k * p))
  = groups.IsElementInGroup group (Some x).
Proof.
  rewrite !(IsElementInGroup_nonneg group p group_P p_pos q) by trivial.
  now rewrite <- Z.mod_pow_l, Z.mod_add, Z.mod_pow_l by lia.
Qed.

Lemma IsElementInGroup_any_representative_witness :
  groups.IsElementInGroup Z7 (Some (4 + -3 * 7))
  = groups.IsElementInGroup Z7 (Some 4).
Proof.
  apply (IsElementInGroup_any_representative Z7 7 3 4 (-3));
    [reflexivity | reflexivity | lia | lia].
Defined.

(** X18: at a modulus [p > 1], 1 passes [IsElementInGroup] whatever the
    order [q >= 0]; 0 fails it when [q > 0]; and with the order 0 every
    integer passes it. *)
Theorem IsElementInGroup_one_zero
  (group : groups.SchnorrGroup) (p q : Z)
  (group_P : groups.P group = Some p) (group_Q : groups.Q group = Some q)
  (p_gt_1 : 1 < p) (q_nonneg : 0 <= q) :
  groups.IsElementInGroup group (Some 1) = Ok true
  /\ (0 < q -> groups.IsElementInGroup group (Some 0) = Ok false)
  /\ (q = 0 -> forall x, groups.IsElementInGroup group (Some x) = Ok true).
Proof.
  assert (p_pos : 0 < p) by lia.
  repeat split.
  - rewrite (IsElementInGroup_nonneg group p group_P p_pos q) by trivial.
    now rewrite Z.pow_1_l, Z.mod_1_l by lia.
  - intros Hq.
    rewrite (IsElementInGroup_nonneg group p group_P p_pos q) by trivial.
    now rewrite Z.pow_0_l, Z.mod_0_l by lia.
  - intros -> x.
    rewrite (IsElementInGroup_nonneg group p group_P p_pos 0) by trivial.
    now rewrite Z.pow_0_r, Z.mod_1_l by lia.
Qed.

Lemma IsElementInGroup_one_zero_witness :
  groups.IsElementInGroup Z7 (Some 1) = Ok true
  /\ (0 < 3 -> groups.IsElementInGroup Z7 (Some 0) = Ok false)
  /\ (3 = 0 -> forall x, groups.IsElementInGroup Z7 (Some x) = Ok true).
Proof.
  apply (IsElementInGroup_one_zero Z7 7 3);
    [reflexivity | reflexivity | lia | lia].
Defined.

(** ** A modulus that is zero or nil *)

(** X19: with the modulus 0, [Add] and [Mul] panic on a division by
    zero, and with a nil modulus on a nil dereference, for all integers;
    [Exp] with a non-negative exponent does not panic in either case and
    returns the power [b^e] unreduced. *)
Theorem modulus_zero_or_nil
  (group : groups.SchnorrGroup) (x y : Z) :
  (groups.P group = Some 0 ->
   groups.Add group (Some x) (Some y) = Panic division_by_zero
   /\ groups.Mul group (Some x) (Some y) = Panic division_by_zero
   /\ (0 <= y -> groups.Exp group (Some x) (Some y) = Ok (Some (x ^ y))))
  /\ (groups.P group = None ->
      groups.Add group (Some x) (Some y) = Panic nil_pointer_dereference
      /\ groups.Mul group (Some x) (Some y) = Panic nil_pointer_dereference
      /\ (0 <= y -> groups.Exp group (Some x) (Some y) = Ok (Some (x ^ y)))).
Proof.
  split; intros HP; unfold groups.Add, groups.Mul, groups.Exp; rewrite HP;
    (split; [reflexivity | split; [reflexivity |]]); intros Hy;
    cbn [big.Sign big.deref bind ret];
    (destruct (Z.eqb_spec (Z.sgn y) (-1)) as [S | _];
      [apply Z.sgn_neg_iff in S; lia |]);
    unfold big.Exp; cbn [big.deref bind ret Z.eqb];
    (destruct (Z.ltb_spec y 0); [lia | reflexivity]).
Qed.

(** ** Division *)

(** X20: at a modulus [p > 0], [Inv] only sees its argument modulo [p],
    and it is [Exp] at the exponent -1. *)
Theorem Inv_is_Exp_minus_one
  (group : groups.SchnorrGroup) (p x x' : Z)
  (group_P : groups.P group = Some p) (p_pos : 0 < p)
  (cong_x : x mod p = x' mod p) :
  groups.Inv group (Some x) = groups.Inv group (Some x')
  /\ groups.Exp group (Some x) (Some (-1)) = groups.Inv group (Some x).
Proof.
  assert (Hmod : forall a, groups.Inv group (Some (a mod p))
                           = groups.Inv group (Some a)).
  { intros a. rewrite !(Inv_pos group p group_P p_pos).
    now rewrite Z.gcd_mod_l, Z.invmod_mod_l. }
  split.
  - now rewrite <- (Hmod x), cong_x, Hmod.
  - rewrite (Exp_neg group p group_P p_pos) by lia.
    cbn [Z.abs]. now rewrite Z.pow_1_r, Hmod.
Qed.

Lemma Inv_is_Exp_minus_one_witness :
  groups.Inv Z7 (Some 10) = groups.Inv Z7 (Some (-4))
  /\ groups.Exp Z7 (Some 10) (Some (-1)) = groups.Inv Z7 (Some 10).
Proof.
  apply (Inv_is_Exp_minus_one Z7 7 10 (-4));
    [reflexivity | lia | reflexivity].
Defined.

(** X21: at a modulus [p > 1], multiplying by [y] and then by [Inv(y)]
    gives back [x] modulo [p], for every [x] and every [y] prime
    to [p]. *)
Theorem Mul_Inv_cancel
  (group : groups.SchnorrGroup) (p x y : Z)
  (group_P : groups.P group = Some p) (p_gt_1 : 1 < p)
  (coprime : Z.gcd y p = 1) :
  (m <- groups.Mul group (Some x) (Some y) ;;
   i <- groups.Inv group (Some y) ;;
   groups.Mul group m i)
  = Ok (Some (x mod p)).
Proof.
  assert (p_pos : 0 < p) by lia.
  rewrite (Mul_pos group p group_P p_pos). cbn [bind].
  rewrite (Inv_pos group p group_P p_pos), coprime.
  cbn [Z.eqb Pos.eqb bind].
  rewrite (Mul_pos group p group_P p_pos).
  rewrite Z.mul_mod_idemp_l, <- Z.mul_assoc by lia.
  rewrite <- Z.mul_mod_idemp_r, (Z.mul_comm y) by lia.
  rewrite Z.invmod_coprime by (trivial; lia).
  now rewrite Z.mul_1_r.
Qed.

Lemma Mul_Inv_cancel_witness :
  (m <- groups.Mul Z7 (Some 12) (Some 3) ;;
   i <- groups.Inv Z7 (Some 3) ;;
   groups.Mul Z7 m i)
  = Ok (Some (12 mod 7)).
Proof.
  apply (Mul_Inv_cancel Z7 7 12 3); [reflexivity | lia | reflexivity].
Defined.

(** X22: at a modulus [p > 1], the inverse of a product is the product
    of the inverses, for [x] and [y] prime to [p]. *)
Theorem Inv_of_Mul
  (group : groups.SchnorrGroup) (p x y : Z)
  (group_P : groups.P group = Some p) (p_gt_1 : 1 < p)
  (coprime_x : Z.gcd x p = 1) (coprime_y : Z.gcd y p = 1) :
  (m <- groups.Mul group (Some x) (Some y) ;; groups.Inv group m)
  = (i <- groups.Inv group (Some x) ;;
     j <- groups.Inv group (Some y) ;;
     groups.Mul group i j).
Proof.
  assert (p_pos : 0 < p) by lia.
  pose proof (Z.coprime_mul_l x y p coprime_x coprime_y) as Hxy.
  rewrite (Mul_pos group p group_P p_pos). cbn [bind].
  rewrite !(Inv_pos group p group_P p_pos), coprime_x, coprime_y.
  rewrite Z.gcd_mod_l, Z.invmod_mod_l, Hxy.
  cbn [Z.eqb Pos.eqb bind].
  rewrite (Mul_pos group p group_P p_pos).
  do 2 f_equal.
  apply (unit_cancel p p_gt_1 _ _ (x * y)); trivial.
  - rewrite <- Z.mod_invmod. apply Z.mod_pos_bound; lia.
  - apply Z.mod_pos_bound; lia.
  - rewrite Z.invmod_coprime by (trivial; lia).
    rewrite Z.mul_mod_idemp_l by lia.
    replace (Z.invmod x p * Z.invmod y p * (x * y))
      with ((Z.invmod x p * x) * (Z.invmod y p * y)) by ring.
    rewrite Z.mul_mod, !Z.invmod_coprime by (trivial; lia).
    now rewrite Z.mul_1_l, Z.mod_1_l.
Qed.

Lemma Inv_of_Mul_witness :
  (m <- groups.Mul Z7 (Some 3) (Some 5) ;; groups.Inv Z7 m)
  = (i <- groups.Inv Z7 (Some 3) ;;
     j <- groups.Inv Z7 (Some 5) ;;
     groups.Mul Z7 i j).
Proof.
  apply (Inv_of_Mul Z7 7 3 5); [reflexivity | lia | reflexivity | reflexivity].
Defined.
